(** * hb-shape.cc: shaper list, shaping entry points and line splitting

    A shallow embedding of [src/hb-shape.cc].  The C functions mutate
    process-wide state (the lazily built shaper list, the shape-plan cache,
    the allocator); that state is the record [World] and every function that
    touches it is a computation in the state monad [M].  A buffer is handed
    to a function by pointer and mutated in place: here the function takes
    the buffer's value and gives back the value it leaves behind. *)

From Stdlib Require Import ZArith Lia.
From stdpp Require Import base decidable option list strings.

Local Open Scope Z_scope.

(** ** Data model *)

(** [hb_codepoint_t] is a 32-bit unsigned integer, [hb_position_t] a 32-bit
    signed one, [hb_tag_t] a 32-bit tag. *)
Abbreviation hb_codepoint_t := Z (only parsing).
Abbreviation hb_position_t := Z (only parsing).
Abbreviation hb_tag_t := Z (only parsing).

Inductive hb_direction_t :=
| HB_DIRECTION_INVALID
| HB_DIRECTION_LTR
| HB_DIRECTION_RTL
| HB_DIRECTION_TTB
| HB_DIRECTION_BTT.

(** Modelled from the spec: [hb_segment_properties_t] is declared in
    hb-buffer.h, which is not part of src; the spec lists the segment
    properties as script, direction and language. *)
Record hb_segment_properties_t := {
  direction : hb_direction_t;
  script : hb_tag_t;
  language : string
}.

Inductive hb_buffer_content_type_t :=
| HB_BUFFER_CONTENT_TYPE_INVALID
| HB_BUFFER_CONTENT_TYPE_UNICODE
| HB_BUFFER_CONTENT_TYPE_GLYPHS.

(** One buffer item: the [codepoint] of its [hb_glyph_info_t] (a Unicode
    character before shaping, a glyph id after) and the [x_advance] of its
    [hb_glyph_position_t]. *)
Record hb_glyph_t := {
  codepoint : hb_codepoint_t;
  x_advance : hb_position_t
}.

(** Modelled from the spec: [hb_buffer_t] is declared in hb-buffer.hh, which
    is not part of src; the spec asks of a buffer its segment properties,
    content that goes from text to glyphs in place, and per-glyph advances
    and glyph identity. *)
Record hb_buffer_t := {
  props : hb_segment_properties_t;
  content_type : hb_buffer_content_type_t;
  glyphs : list hb_glyph_t
}.

(** Modelled from the spec: [hb_font_t] is declared in hb-font.hh, which is
    not part of src; the spec asks of a font a face identity, its current
    variation coordinates and a nominal-glyph lookup.  The lookup is handed
    a pointer to the cell for the glyph; neither src nor the spec says what
    it leaves there when the font has no glyph for the character, so that is
    the font's own: [glyph_not_found] gives the content of the cell after a
    failed lookup from its content before. *)
Record hb_font_t := {
  face : nat;
  coords : list Z;
  nominal_glyph : hb_codepoint_t → option hb_codepoint_t;
  glyph_not_found : hb_codepoint_t → hb_codepoint_t
}.

Definition num_coords (font : hb_font_t) : nat := length (coords font).

Record hb_feature_t := {
  tag : hb_tag_t;
  value : Z;
  start : Z;
  end_ : Z
}.

(** Modelled from the spec: [hb_shaper_entry_t] is declared in hb-shaper.hh,
    which is not part of src.  The source reads its [name]; the spec gives a
    backend a test of whether it applies to the buffer's properties and an
    execution that may fail and leaves the buffer as it got it to. *)
Record hb_shaper_entry_t := {
  name : string;
  applicable : hb_segment_properties_t → bool;
  func : hb_font_t → hb_buffer_t → list hb_feature_t → bool * hb_buffer_t
}.

(** The compiled-in table behind [_hb_shapers_get ()], in priority order.
    hb-shaper.cc is not part of src, so the table is a parameter of the whole
    development. *)
Class hb_shapers_t := _hb_shapers_get : list hb_shaper_entry_t.

Definition HB_SHAPERS_COUNT `{hb_shapers_t} : nat := length _hb_shapers_get.

(** ** Memory *)

(** A [const char **]: null, the static array [nil_shaper_list], or a block
    obtained from [hb_calloc]. *)
Inductive ptr :=
| nullptr
| static_nil_shaper_list
| heap_block (a : nat).

Global Instance ptr_eq_dec : EqDecision ptr.
Proof. solve_decision. Defined.

Definition is_null (p : ptr) : bool :=
  match p with nullptr => true | _ => false end.

(** An array of [const char *]: each cell is a string or the null pointer. *)
Abbreviation cells := (list (option string)) (only parsing).

(** [static const char *nil_shaper_list[] = {nullptr};] *)
Definition nil_shaper_list : cells := [None].

Inductive atexit_fn := free_static_shaper_list_fn.

(** ** Shape plans *)

(** What [hb_shape_plan_create_cached2] is called with. *)
Record hb_shape_plan_key_t := {
  key_face : nat;
  key_props : hb_segment_properties_t;
  key_features : list hb_feature_t;
  key_coords : list Z;
  key_shaper_list : option (list string)
}.

Global Instance hb_direction_eq_dec : EqDecision hb_direction_t.
Proof. solve_decision. Defined.
Global Instance hb_segment_properties_eq_dec : EqDecision hb_segment_properties_t.
Proof. solve_decision. Defined.
Global Instance hb_feature_eq_dec : EqDecision hb_feature_t.
Proof. solve_decision. Defined.
Global Instance hb_shape_plan_key_eq_dec : EqDecision hb_shape_plan_key_t.
Proof. solve_decision. Defined.

(** A cached plan and the number of references handed out and not yet
    released. *)
Record hb_shape_plan_t := {
  plan_key : hb_shape_plan_key_t;
  ref_count : nat
}.

(** Calls into the collaborators, in the order they happen.  A plan is named
    by its index in the cache. *)
Inductive event :=
| EvPlanAcquire (plan : nat)
| EvPlanExecute (plan : nat) (res : bool)
| EvPlanRelease (plan : nat)
| EvNominalGlyph (unicode : hb_codepoint_t) (found : bool)
| EvSplit (buffer : hb_buffer_t) (num_target_lengths : nat)
          (target_lengths : list hb_position_t) (break_glyph : hb_codepoint_t).

(** ** The process state *)

Record World := {
  instance : ptr;                        (* static_shaper_list.instance *)
  heap : list (option (list (option string)));  (* blocks; None once freed *)
  mem_avail : nat;                       (* bytes hb_calloc can still hand out *)
  atexit_handlers : list atexit_fn;
  plans : list hb_shape_plan_t;          (* the shape-plan cache *)
  log : list event
}.

Definition set_instance (p : ptr) (w : World) : World :=
  {| instance := p; heap := heap w; mem_avail := mem_avail w;
     atexit_handlers := atexit_handlers w; plans := plans w; log := log w |}.

Definition set_heap (h : list (option (list (option string)))) (avail : nat)
    (w : World) : World :=
  {| instance := instance w; heap := h; mem_avail := avail;
     atexit_handlers := atexit_handlers w; plans := plans w; log := log w |}.

Definition set_atexit_handlers (l : list atexit_fn) (w : World) : World :=
  {| instance := instance w; heap := heap w; mem_avail := mem_avail w;
     atexit_handlers := l; plans := plans w; log := log w |}.

Definition set_plans (l : list hb_shape_plan_t) (w : World) : World :=
  {| instance := instance w; heap := heap w; mem_avail := mem_avail w;
     atexit_handlers := atexit_handlers w; plans := l; log := log w |}.

Definition emit (e : event) (w : World) : World :=
  {| instance := instance w; heap := heap w; mem_avail := mem_avail w;
     atexit_handlers := atexit_handlers w; plans := plans w;
     log := log w ++ [e] |}.

(** ** The state monad *)

Definition M (A : Type) : Type := World → A * World.

Definition ret {A} (a : A) : M A := λ w, (a, w).

Definition bind {A B} (m : M A) (k : A → M B) : M B :=
  λ w, let '(a, w') := m w in k a w'.

Definition get_world : M World := λ w, (w, w).
Definition modify (f : World → World) : M unit := λ w, (tt, f w).

Declare Scope hb_scope.
Delimit Scope hb_scope with hb.
Notation "x <- c ;; k" := (bind c (λ x, k))
  (at level 100, c at next level, right associativity) : hb_scope.
Notation "c ;;; k" := (bind c (λ _, k))
  (at level 100, k at level 200, right associativity) : hb_scope.
Local Open Scope hb_scope.

(** ** The allocator *)

Definition sizeof_ptr : nat := 8.

(** [hb_calloc (nmemb, size)]: a zeroed block of [nmemb] cells, or the null
    pointer when the [nmemb * size] bytes are not to be had. *)
Definition hb_calloc (nmemb size : nat) : M ptr :=
  λ w,
    if decide (nmemb * size ≤ mem_avail w)%nat
    then (heap_block (length (heap w)),
          set_heap (heap w ++ [Some (replicate nmemb None)])
                   (mem_avail w - nmemb * size) w)
    else (nullptr, w).

(** [hb_free (p)] *)
Definition hb_free (p : ptr) : M unit :=
  λ w,
    match p with
    | heap_block a =>
        match heap w !! a with
        | Some (Some blk) =>
            (tt, set_heap (<[a := None]> (heap w))
                          (mem_avail w + length blk * sizeof_ptr) w)
        | _ => (tt, w)
        end
    | _ => (tt, w)
    end.

(** [p[i] = v] *)
Definition store (p : ptr) (i : nat) (v : option string) : M unit :=
  λ w,
    match p with
    | heap_block a =>
        match heap w !! a with
        | Some (Some blk) =>
            (tt, set_heap (<[a := Some (<[i := v]> blk)]> (heap w)) (mem_avail w) w)
        | _ => (tt, w)
        end
    | _ => (tt, w)
    end.

(** The array [p] points to. *)
Definition load (w : World) (p : ptr) : option (list (option string)) :=
  match p with
  | nullptr => None
  | static_nil_shaper_list => Some nil_shaper_list
  | heap_block a => mjoin (heap w !! a)
  end.

(** A null-terminated array read as the list of the strings before the first
    null. *)
Fixpoint until_null (l : list (option string)) : list string :=
  match l with
  | Some s :: r => s :: until_null r
  | _ => []
  end.

Definition hb_atexit (f : atexit_fn) : M unit :=
  modify (λ w, set_atexit_handlers (atexit_handlers w ++ [f]) w).

(** ** The shaper list *)

(** [for (i = 0; i < HB_SHAPERS_COUNT; i++) shaper_list[i] = shapers[i].name;]
    run from index [i] over the entries not yet copied; gives the final
    [i]. *)
Fixpoint copy_names (shaper_list : ptr) (i : nat)
    (shapers : list hb_shaper_entry_t) : M nat :=
  match shapers with
  | [] => ret i
  | s :: rest =>
      store shaper_list i (Some (name s)) ;;;
      copy_names shaper_list (S i) rest
  end.

Module hb_shaper_list_lazy_loader_t.

Definition create `{hb_shapers_t} : M ptr :=
  shaper_list <- hb_calloc (1 + HB_SHAPERS_COUNT) sizeof_ptr ;;
  if is_null shaper_list then ret nullptr
  else
    let shapers := _hb_shapers_get in
    i <- copy_names shaper_list 0 shapers ;;
    store shaper_list i None ;;;
    hb_atexit free_static_shaper_list_fn ;;;
    ret shaper_list.

Definition destroy (l : ptr) : M unit := hb_free l.

Definition get_null : ptr := static_nil_shaper_list.

(** Modelled from the spec: [hb_lazy_loader_t::get_stored] is defined in
    hb-machinery.hh, which is not part of src.  The first call triggers
    construction, a failed construction yields the degenerate list and is
    not retried, later calls give back the cached result.  In a run of one
    thread the publishing compare-and-exchange always succeeds. *)
Definition get_stored `{hb_shapers_t} : M ptr :=
  w <- get_world ;;
  let p := instance w in
  if is_null p then
    p <- create ;;
    let p := if is_null p then get_null else p in
    modify (set_instance p) ;;;
    ret p
  else ret p.

Definition get_unconst `{hb_shapers_t} : M ptr := get_stored.

(** Modelled from the spec: [hb_lazy_loader_t::free_instance] is defined in
    hb-machinery.hh, which is not part of src.  The finalizer releases the
    cached buffer; the static degenerate list is not a buffer to release. *)
Definition free_instance : M unit :=
  w <- get_world ;;
  let p := instance w in
  if is_null p then ret tt
  else
    modify (set_instance nullptr) ;;;
    if decide (p = get_null) then ret tt else destroy p.

End hb_shaper_list_lazy_loader_t.

Definition free_static_shaper_list : M unit :=
  hb_shaper_list_lazy_loader_t.free_instance.

Definition run_atexit_fn (f : atexit_fn) : M unit :=
  match f with free_static_shaper_list_fn => free_static_shaper_list end.

Definition hb_shape_list_shapers `{hb_shapers_t} : M ptr :=
  hb_shaper_list_lazy_loader_t.get_unconst.

(** Process exit: the handlers registered with [hb_atexit] run, the last
    registered first. *)
Fixpoint run_handlers (l : list atexit_fn) : M unit :=
  match l with
  | [] => ret tt
  | f :: rest => run_atexit_fn f ;;; run_handlers rest
  end.

Definition run_atexit : M unit :=
  w <- get_world ;;
  run_handlers (reverse (atexit_handlers w)).

(** ** The shape-plan cache *)

(** The backends a plan tries, in order: the named ones when the caller gave
    a list, else every compiled-in one. *)
Definition find_shaper `{hb_shapers_t} (n : string) : option hb_shaper_entry_t :=
  List.find (λ s, bool_decide (name s = n)) _hb_shapers_get.

Definition effective_shapers `{hb_shapers_t} (shaper_list : option (list string))
    : list hb_shaper_entry_t :=
  match shaper_list with
  | None => _hb_shapers_get
  | Some l => omap find_shaper l
  end.

Definition retain (p : hb_shape_plan_t) : hb_shape_plan_t :=
  {| plan_key := plan_key p; ref_count := S (ref_count p) |}.

Definition release (p : hb_shape_plan_t) : hb_shape_plan_t :=
  {| plan_key := plan_key p; ref_count := pred (ref_count p) |}.

(** Modelled from the spec: [hb_shape_plan_create_cached2] is defined in
    hb-shape-plan.cc, which is not part of src.  The key is made of the face,
    the segment properties, the features by value, the variation coordinates
    and the backend order; a plan cached under an equal key is reused, else
    one is built.  [num_features] and [num_coords] are the lengths of the
    lists. *)
Definition hb_shape_plan_create_cached2 (face : nat)
    (props : hb_segment_properties_t) (features : list hb_feature_t)
    (coords : list Z) (shaper_list : option (list string)) : M nat :=
  let key := {| key_face := face; key_props := props;
                key_features := features; key_coords := coords;
                key_shaper_list := shaper_list |} in
  w <- get_world ;;
  match list_find (λ p, plan_key p = key) (plans w) with
  | Some (i, p) =>
      modify (set_plans (<[i := retain p]> (plans w))) ;;;
      modify (emit (EvPlanAcquire i)) ;;;
      ret i
  | None =>
      modify (set_plans (plans w ++ [{| plan_key := key; ref_count := 1 |}])) ;;;
      modify (emit (EvPlanAcquire (length (plans w)))) ;;;
      ret (length (plans w))
  end.

(** Modelled from the spec: the fallback chain of a plan's execution.  The
    backends are tried one at a time, in order; one that does not apply to
    the buffer's properties is skipped; the first that completes without
    failure stops the chain; after a failure the next one gets the buffer as
    the failed one left it. *)
Fixpoint try_shapers (order : list hb_shaper_entry_t) (font : hb_font_t)
    (buffer : hb_buffer_t) (features : list hb_feature_t)
    : bool * hb_buffer_t :=
  match order with
  | [] => (false, buffer)
  | s :: rest =>
      if applicable s (props buffer) then
        let r := func s font buffer features in
        if r.1 then (true, r.2)
        else try_shapers rest font r.2 features
      else try_shapers rest font buffer features
  end.

(** Modelled from the spec: [hb_shape_plan_execute] is defined in
    hb-shape-plan.cc, which is not part of src.  It gives the boolean of the
    fallback chain and the buffer the chain leaves. *)
Definition hb_shape_plan_execute `{hb_shapers_t} (shape_plan : nat)
    (font : hb_font_t) (buffer : hb_buffer_t) (features : list hb_feature_t)
    : M (bool * hb_buffer_t) :=
  w <- get_world ;;
  let r := match plans w !! shape_plan with
           | Some p =>
               try_shapers (effective_shapers (key_shaper_list (plan_key p)))
                           font buffer features
           | None => (false, buffer)
           end in
  modify (emit (EvPlanExecute shape_plan r.1)) ;;;
  ret r.

(** Modelled from the spec: [hb_shape_plan_destroy] is defined in
    hb-shape-plan.cc, which is not part of src.  It gives one reference
    back. *)
Definition hb_shape_plan_destroy (shape_plan : nat) : M unit :=
  modify (λ w, set_plans (alter release shape_plan (plans w)) w) ;;;
  modify (emit (EvPlanRelease shape_plan)).

(** The references to the plans cached under [key] that are outstanding. *)
Definition outstanding (key : hb_shape_plan_key_t) (w : World) : nat :=
  sum_list (ref_count <$> filter (λ p, plan_key p = key) (plans w)).

(** ** Shaping *)

(** [hb_shape_full]; a null [shaper_list] is [None].  The result pairs the
    returned [hb_bool_t] with the buffer as the call leaves it. *)
Definition hb_shape_full `{hb_shapers_t} (font : hb_font_t)
    (buffer : hb_buffer_t) (features : list hb_feature_t)
    (shaper_list : option (list string)) : M (bool * hb_buffer_t) :=
  shape_plan <- hb_shape_plan_create_cached2 (face font) (props buffer)
                  features (coords font) shaper_list ;;
  res <- hb_shape_plan_execute shape_plan font buffer features ;;
  hb_shape_plan_destroy shape_plan ;;;
  ret res.

(** [hb_shape] returns nothing; the result is the buffer as the call leaves
    it. *)
Definition hb_shape `{hb_shapers_t} (font : hb_font_t) (buffer : hb_buffer_t)
    (features : list hb_feature_t) : M hb_buffer_t :=
  r <- hb_shape_full font buffer features None ;;
  ret r.2.

(** ** Line splitting *)

(** Modelled from the spec: [hb_font_t::get_nominal_glyph] is defined in
    hb-font.hh, which is not part of src.  It is the font's mapping of a
    character to its nominal glyph id, written through the pointer [glyph];
    for a character the font does not map it reports failure and the cell
    holds what the font's [glyph_not_found] makes of it.  [glyph] is the
    content of that cell before the call; the result pairs the returned
    [hb_bool_t] with the content after. *)
Definition get_nominal_glyph (font : hb_font_t) (unicode : hb_codepoint_t)
    (glyph : hb_codepoint_t) : M (bool * hb_codepoint_t) :=
  let r := match nominal_glyph font unicode with
           | Some g => (true, g)
           | None => (false, glyph_not_found font glyph)
           end in
  modify (emit (EvNominalGlyph unicode r.1)) ;;;
  ret r.

Definition advance_sum (gs : list hb_glyph_t) : Z :=
  foldr (λ g acc, x_advance g + acc) 0 gs.

(** Walking a line from its first glyph with the running advance [acc]: the
    position of the first glyph with which the running advance exceeds
    [target], if there is one. *)
Fixpoint overflow_point (target acc : Z) (gs : list hb_glyph_t) (i : nat)
    : option nat :=
  match gs with
  | [] => None
  | g :: rest =>
      if target <? acc + x_advance g then Some i
      else overflow_point target (acc + x_advance g) rest (S i)
  end.

(** Backing off from position [j] of a line: the most recent position at or
    before [j], after the line's first glyph, that holds [break_glyph]. *)
Fixpoint last_break (break_glyph : hb_codepoint_t) (gs : list hb_glyph_t)
    (j : nat) : option nat :=
  match j with
  | O => None
  | S j' =>
      match gs !! j with
      | Some g =>
          if codepoint g =? break_glyph then Some j
          else last_break break_glyph gs j'
      | None => last_break break_glyph gs j'
      end
  end.

(** The number of glyphs of the line that starts at the head of [gs]: all of
    them when the running advance never exceeds [target]; else up to the most
    recent break glyph, or, without one, up to the overflow point.  A line
    holds at least one glyph. *)
Definition line_length (target : hb_position_t) (break_glyph : hb_codepoint_t)
    (gs : list hb_glyph_t) : nat :=
  match overflow_point target 0 gs 0 with
  | None => length gs
  | Some j =>
      match last_break break_glyph gs j with
      | Some i => i
      | None => Nat.max j 1
      end
  end.

(** The lines of the glyphs [gs], which start at index [start] of the buffer,
    as pairs of a start index and an end index.  Each line takes the next
    target length; when none is left the last one taken, [last], is used
    again. *)
Fixpoint split_lines (fuel : nat) (start : nat) (gs : list hb_glyph_t)
    (targets : list hb_position_t) (last : hb_position_t)
    (break_glyph : hb_codepoint_t) : list (nat * nat) :=
  match fuel with
  | O => []
  | S fuel' =>
      match gs with
      | [] => []
      | _ :: _ =>
          let target := default last (head targets) in
          let n := line_length target break_glyph gs in
          (start, start + n)%nat ::
            split_lines fuel' (start + n) (drop n gs) (tail targets) target
                        break_glyph
      end
  end.

Definition split_buffer (buffer : hb_buffer_t) (num_target_lengths : nat)
    (target_lengths : list hb_position_t) (break_glyph : hb_codepoint_t)
    : list (nat * nat) :=
  let targets := take num_target_lengths target_lengths in
  match targets with
  | [] => []
  | t :: _ =>
      split_lines (length (glyphs buffer)) 0 (glyphs buffer) targets t
                  break_glyph
  end.

(** Modelled from the spec: [hb_split_buffer_to_lines] is declared in
    hb-justification.h, which is not part of src.  It partitions the shaped
    buffer into lines, reading the first [num_target_lengths] target lengths,
    and leaves the buffer's glyphs as they are. *)
Definition hb_split_buffer_to_lines (buffer : hb_buffer_t)
    (num_target_lengths : nat) (target_lengths : list hb_position_t)
    (break_glyph : hb_codepoint_t) : M (list (nat * nat)) :=
  modify (emit (EvSplit buffer num_target_lengths target_lengths break_glyph)) ;;;
  ret (split_buffer buffer num_target_lengths target_lengths break_glyph).

(** ** Justification *)

(** [hb_justify].  The local [space] is declared without an initial value:
    [space0] is whatever the cell holds when the lookup is called.  The
    function returns nothing; the result is the buffer as the call leaves
    it. *)
Definition hb_justify `{hb_shapers_t} (font : hb_font_t) (buffer : hb_buffer_t)
    (num_target_lengths : nat) (target_lengths : list hb_position_t)
    (features : list hb_feature_t) (space0 : hb_codepoint_t) : M hb_buffer_t :=
  if decide (num_target_lengths = 0%nat) then ret buffer
  else
    shaped <- hb_shape_full font buffer features None ;;
    let buffer := shaped.2 in
    looked <- get_nominal_glyph font 32 space0 ;;
    let space := looked.2 in
    hb_split_buffer_to_lines buffer num_target_lengths target_lengths space ;;;
    ret buffer.

(** The key [hb_shape_full] asks the cache for. *)
Definition key_of (font : hb_font_t) (buffer : hb_buffer_t)
    (features : list hb_feature_t) (shaper_list : option (list string))
    : hb_shape_plan_key_t :=
  {| key_face := face font; key_props := props buffer;
     key_features := features; key_coords := coords font;
     key_shaper_list := shaper_list |}.

(** ** Outcomes of the fallback chain *)

(** [all_failed font features order b b']: started on the buffer [b], every
    backend of [order] is skipped as not applicable or is tried and fails,
    and the buffer is left as [b']. *)
Inductive all_failed (font : hb_font_t) (features : list hb_feature_t)
    : list hb_shaper_entry_t → hb_buffer_t → hb_buffer_t → Prop :=
| all_failed_nil b :
    all_failed font features [] b b
| all_failed_skip s rest b b' :
    applicable s (props b) = false →
    all_failed font features rest b b' →
    all_failed font features (s :: rest) b b'
| all_failed_fail s rest b b' :
    applicable s (props b) = true →
    (func s font b features).1 = false →
    all_failed font features rest (func s font b features).2 b' →
    all_failed font features (s :: rest) b b'.

(** [first_success font features order b b']: some backend of [order]
    applies and succeeds, leaving the buffer as [b'], after every backend
    before it was skipped or failed. *)
Definition first_success (font : hb_font_t) (features : list hb_feature_t)
    (order : list hb_shaper_entry_t) (b b' : hb_buffer_t) : Prop :=
  ∃ before s after b0,
    order = before ++ s :: after ∧
    all_failed font features before b b0 ∧
    applicable s (props b0) = true ∧
    func s font b0 features = (true, b').

(** The target length of line [k] (counted from 0) under the policy that the
    last target length is used again once the list is exhausted. *)
Definition target_of_line (targets : list hb_position_t)
    (dflt : hb_position_t) (k : nat) : hb_position_t :=
  default (default dflt (last targets)) (targets !! k).

(** ** A small process to run the definitions on *)

Module Sample.

Definition latin : hb_segment_properties_t :=
  {| direction := HB_DIRECTION_LTR; script := 1281455214; language := "en" |}.

(** A font that maps the printable ASCII characters, the space to glyph 3;
    a lookup that fails writes glyph 0. *)
Definition font : hb_font_t :=
  {| face := 1; coords := [];
     nominal_glyph := λ u, if (32 <=? u) && (u <? 127) then Some (u - 29)
                           else None;
     glyph_not_found := λ _, 0 |}.

(** A font without a glyph for the space; a lookup that fails leaves the
    cell alone. *)
Definition font_no_space : hb_font_t :=
  {| face := 2; coords := [];
     nominal_glyph := λ u, if (33 <=? u) && (u <? 127) then Some (u - 29)
                           else None;
     glyph_not_found := λ glyph, glyph |}.

(** A backend that maps each character to its nominal glyph, ten units
    wide. *)
Definition ot : hb_shaper_entry_t :=
  {| name := "ot";
     applicable := λ _, true;
     func := λ font buffer _,
       (true,
        {| props := props buffer;
           content_type := HB_BUFFER_CONTENT_TYPE_GLYPHS;
           glyphs := (λ g, {| codepoint := default 0 (nominal_glyph font (codepoint g));
                              x_advance := 10 |}) <$> glyphs buffer |}) |}.

(** A backend that always fails and leaves the buffer alone. *)
Definition broken : hb_shaper_entry_t :=
  {| name := "broken";
     applicable := λ _, true;
     func := λ _ buffer _, (false, buffer) |}.

Definition shapers : hb_shapers_t := [broken; ot].
Definition broken_only : hb_shapers_t := [broken].

Definition text (s : list Z) : hb_buffer_t :=
  {| props := latin;
     content_type := HB_BUFFER_CONTENT_TYPE_UNICODE;
     glyphs := (λ u, {| codepoint := u; x_advance := 0 |}) <$> s |}.

(** "ab cd ef gh" *)
Definition words : hb_buffer_t :=
  text [97; 98; 32; 99; 100; 32; 101; 102; 32; 103; 104].

Definition boot (avail : nat) : World :=
  {| instance := nullptr; heap := []; mem_avail := avail;
     atexit_handlers := []; plans := []; log := [] |}.

(** "ab cd ef gh" as [ot] shapes it: eleven glyphs, ten units each, the
    space as glyph 3. *)
Definition shaped_words : hb_buffer_t :=
  (func ot font words []).2.

End Sample.

(** * Properties *)

(** ** The shaper list is built once *)

Import hb_shaper_list_lazy_loader_t.

Lemma get_stored_cached `{hb_shapers_t} (w : World) :
  is_null (instance w) = false → get_stored w = (instance w, w).
Proof.
  intros Hnn. unfold get_stored, bind, get_world. cbn. by rewrite Hnn.
Qed.

Lemma get_stored_first `{hb_shapers_t} (w : World) :
  is_null (instance w) = true →
  get_stored w =
    let r := create w in
    let p := if is_null r.1 then get_null else r.1 in
    (p, set_instance p r.2).
Proof.
  intros Hn. unfold get_stored, bind, get_world, modify, ret. cbn.
  rewrite Hn. by destruct (create w) as [p w1].
Qed.

(** What a call gives back is never null, and it is what the loader then
    holds. *)
Lemma get_stored_published `{hb_shapers_t} (w : World) :
  is_null (get_stored w).1 = false ∧ instance (get_stored w).2 = (get_stored w).1.
Proof.
  destruct (is_null (instance w)) eqn:Hn.
  - rewrite (get_stored_first w Hn). cbn.
    destruct (is_null (create w).1) eqn:Hp; cbn; auto.
  - rewrite (get_stored_cached w Hn). auto.
Qed.

(** C5: two calls of [hb_shape_list_shapers] in a row give the same pointer,
    to the same contents; the second call leaves the whole process state as
    the first one left it, so nothing is constructed a second time. *)
Theorem hb_shape_list_shapers_twice `{hb_shapers_t} (w : World) :
  let first := hb_shape_list_shapers w in
  let second := hb_shape_list_shapers first.2 in
  second.1 = first.1 ∧
  load second.2 second.1 = load first.2 first.1 ∧
  second.2 = first.2.
Proof.
  cbv zeta. unfold hb_shape_list_shapers, get_unconst.
  destruct (get_stored_published w) as [Hnn Hinst].
  destruct (get_stored w) as [p w1]. cbn [fst snd] in *.
  rewrite get_stored_cached by congruence. cbn [fst snd].
  rewrite Hinst. auto.
Qed.

(** ** What the shaper list holds *)

Lemma hb_calloc_failed (nmemb size : nat) (w : World) :
  (hb_calloc nmemb size w).1 = nullptr → hb_calloc nmemb size w = (nullptr, w).
Proof. unfold hb_calloc. by case_decide. Qed.

Lemma hb_calloc_done (nmemb size : nat) (w : World) :
  (nmemb * size ≤ mem_avail w)%nat →
  hb_calloc nmemb size w =
    (heap_block (length (heap w)),
     set_heap (heap w ++ [Some (replicate nmemb None)])
              (mem_avail w - nmemb * size) w).
Proof. intros Hle. unfold hb_calloc. by case_decide. Qed.

Lemma store_load (a i : nat) (v : option string) (w : World)
    (blk : list (option string)) :
  load w (heap_block a) = Some blk →
  load (store (heap_block a) i v w).2 (heap_block a) = Some (<[i := v]> blk).
Proof.
  unfold load, store. intros Hl.
  destruct (heap w !! a) as [[b|]|] eqn:Ha; simplify_eq/=.
  rewrite list_lookup_insert_eq; [done|]. by eapply lookup_lt_Some.
Qed.

Lemma store_atexit_handlers (p : ptr) (i : nat) (v : option string) (w : World) :
  atexit_handlers (store p i v w).2 = atexit_handlers w.
Proof.
  unfold store. destruct p as [| |a]; try done.
  by destruct (heap w !! a) as [[b|]|].
Qed.

Lemma copy_names_atexit_handlers (p : ptr) (shapers : list hb_shaper_entry_t) :
  ∀ (i : nat) (w : World),
    atexit_handlers (copy_names p i shapers w).2 = atexit_handlers w.
Proof.
  induction shapers as [|s rest IH]; intros i w; cbn [copy_names]; [done|].
  unfold bind.
  pose proof (store_atexit_handlers p i (Some (name s)) w) as Hs.
  destruct (store p i (Some (name s)) w) as [[] w1]. cbn [snd] in Hs.
  by rewrite IH.
Qed.

(** The copying loop overwrites the cells from [i] on with the names, in the
    table's order, and stops just after them. *)
Lemma copy_names_load (a : nat) (shapers : list hb_shaper_entry_t) :
  ∀ (i : nat) (w : World) (blk : list (option string)),
    load w (heap_block a) = Some blk →
    (i + length shapers ≤ length blk)%nat →
    (copy_names (heap_block a) i shapers w).1 = (i + length shapers)%nat ∧
    load (copy_names (heap_block a) i shapers w).2 (heap_block a) =
      Some (take i blk ++ (Some ∘ name <$> shapers)
              ++ drop (i + length shapers) blk).
Proof.
  induction shapers as [|s rest IH]; intros i w blk Hl Hlen; cbn [copy_names].
  - unfold ret. cbn. rewrite Nat.add_0_r, take_drop. auto.
  - cbn [length] in Hlen. unfold bind.
    pose proof (store_load a i (Some (name s)) w blk Hl) as Hs.
    destruct (store (heap_block a) i (Some (name s)) w) as [[] w1].
    cbn [snd] in Hs.
    destruct (IH (S i) w1 _ Hs) as [Hi Hc].
    { rewrite length_insert. lia. }
    split; [rewrite Hi; cbn; lia|].
    rewrite Hc. f_equal.
    rewrite (take_S_r _ i (Some (name s))).
    2:{ apply list_lookup_insert_eq. lia. }
    rewrite take_insert_ge by lia.
    rewrite drop_insert_lt by lia.
    cbn [length fmap list_fmap]. rewrite <- app_assoc. cbn.
    by replace (i + S (length rest))%nat with (S i + length rest)%nat by lia.
Qed.

(** With the memory to be had, construction gives a new block that holds the
    name of every compiled-in shaper, in the table's order, and the null
    after them, and registers the finalizer. *)
Lemma create_contents `{hb_shapers_t} (w : World) :
  ((1 + HB_SHAPERS_COUNT) * sizeof_ptr ≤ mem_avail w)%nat →
  (create w).1 = heap_block (length (heap w)) ∧
  load (create w).2 (create w).1 = Some ((Some ∘ name <$> _hb_shapers_get) ++ [None]) ∧
  atexit_handlers (create w).2 = atexit_handlers w ++ [free_static_shaper_list_fn].
Proof.
  intros Hmem. unfold create, bind.
  rewrite hb_calloc_done by done. cbn [is_null].
  set (w0 := set_heap _ _ w).
  assert (Hl : load w0 (heap_block (length (heap w)))
               = Some (replicate (1 + HB_SHAPERS_COUNT) None)).
  { unfold load, w0. cbn [heap set_heap].
    by rewrite lookup_app_r, Nat.sub_diag by lia. }
  destruct (copy_names_load (length (heap w)) _hb_shapers_get 0 w0 _ Hl)
    as [Hi Hc].
  { rewrite length_replicate. unfold HB_SHAPERS_COUNT. lia. }
  pose proof (copy_names_atexit_handlers (heap_block (length (heap w)))
                _hb_shapers_get 0 w0) as Hw1.
  destruct (copy_names _ 0 _ w0) as [i w1]. cbn [fst snd] in Hi, Hc, Hw1. subst i.
  pose proof (store_load _ (length _hb_shapers_get) None w1 _ Hc) as Hs.
  pose proof (store_atexit_handlers (heap_block (length (heap w)))
                (length _hb_shapers_get) None w1) as Hat.
  cbn [Nat.add] in *.
  destruct (store _ (length _hb_shapers_get) None w1) as [[] w2].
  cbn [fst snd] in *. unfold hb_atexit, modify, ret. cbn [fst snd].
  split; [done|]. split.
  - unfold load in *. cbn [heap set_atexit_handlers]. rewrite Hs. f_equal.
    cbn [take app]. unfold HB_SHAPERS_COUNT. rewrite drop_replicate.
    replace (S (length _hb_shapers_get) - length _hb_shapers_get)%nat
      with 1%nat by lia.
    cbn [replicate]. apply list_insert_id.
    by rewrite lookup_app_r, length_fmap, Nat.sub_diag by (rewrite length_fmap; lia).
  - cbn [atexit_handlers set_atexit_handlers]. rewrite Hat.
    by rewrite Hw1.
Qed.

Lemma create_failed `{hb_shapers_t} (w : World) :
  (hb_calloc (1 + HB_SHAPERS_COUNT) sizeof_ptr w).1 = nullptr →
  create w = (nullptr, w).
Proof.
  intros Hf. unfold create, bind. by rewrite (hb_calloc_failed _ _ _ Hf).
Qed.

Lemma until_null_names (l : list hb_shaper_entry_t) :
  until_null ((Some ∘ name <$> l) ++ [None]) = name <$> l.
Proof. induction l as [|s l IH]; [done|]. cbn. by rewrite IH. Qed.

(** The first call in a process with the memory to be had gives the names of
    the compiled-in shapers, in priority order. *)
Lemma hb_shape_list_shapers_names `{hb_shapers_t} (w : World) :
  instance w = nullptr →
  ((1 + HB_SHAPERS_COUNT) * sizeof_ptr ≤ mem_avail w)%nat →
  until_null <$> load (hb_shape_list_shapers w).2 (hb_shape_list_shapers w).1
    = Some (name <$> _hb_shapers_get).
Proof.
  intros Hi Hmem. unfold hb_shape_list_shapers, get_unconst.
  rewrite get_stored_first by (rewrite Hi; reflexivity).
  destruct (create_contents w Hmem) as (Hp & Hc & _).
  cbv zeta. rewrite Hp in *. cbn [is_null fst snd].
  change (load (set_instance ?p ?w') ?q) with (load w' q).
  rewrite Hc. cbn. f_equal. apply until_null_names.
Qed.

(** C6: when the allocation in the construction of the shaper list fails,
    [hb_shape_list_shapers] gives the static [nil_shaper_list], the array of
    the one null; the only trace the failure leaves in the process is that
    this pointer is now the cached one. *)
Theorem hb_shape_list_shapers_alloc_failure `{hb_shapers_t} (w : World) :
  instance w = nullptr →
  (hb_calloc (1 + HB_SHAPERS_COUNT) sizeof_ptr w).1 = nullptr →
  (hb_shape_list_shapers w).1 = get_null ∧
  load (hb_shape_list_shapers w).2 (hb_shape_list_shapers w).1 = Some [None] ∧
  (hb_shape_list_shapers w).2 = set_instance get_null w.
Proof.
  intros Hi Hf. unfold hb_shape_list_shapers, get_unconst.
  rewrite get_stored_first by (rewrite Hi; reflexivity).
  rewrite (create_failed w Hf). cbn. auto.
Qed.

(** ** The fallback chain *)

Lemma try_shapers_false (font : hb_font_t) (features : list hb_feature_t)
    (order : list hb_shaper_entry_t) :
  ∀ b b', try_shapers order font b features = (false, b') ↔
          all_failed font features order b b'.
Proof.
  induction order as [|s rest IH]; intros b b'; cbn [try_shapers].
  - split.
    + intros [= <-]. constructor.
    + inversion 1. done.
  - destruct (applicable s (props b)) eqn:Happ.
    + destruct (func s font b features) as [ok b1] eqn:Hf. cbn [fst snd].
      destruct ok.
      * split; [done|]. inversion 1; subst; [congruence|].
        rewrite Hf in *. done.
      * rewrite IH. split.
        -- intros Hr. apply all_failed_fail; rewrite ?Hf; done.
        -- inversion 1; subst; [congruence|]. by rewrite Hf in *.
    + rewrite IH. split.
      * intros Hr. by apply all_failed_skip.
      * inversion 1; subst; [done|congruence].
Qed.

Lemma try_shapers_true (font : hb_font_t) (features : list hb_feature_t)
    (order : list hb_shaper_entry_t) :
  ∀ b b', try_shapers order font b features = (true, b') ↔
          first_success font features order b b'.
Proof.
  induction order as [|s rest IH]; intros b b'; cbn [try_shapers].
  - split; [done|]. intros (before & s & after & b0 & Ho & _).
    by destruct before.
  - destruct (applicable s (props b)) eqn:Happ.
    + destruct (func s font b features) as [ok b1] eqn:Hf. cbn [fst snd].
      destruct ok.
      * split.
        -- intros [= <-]. exists [], s, rest, b. repeat split; try done. constructor.
        -- intros (before & s' & after & b0 & Ho & Hfail & Ha & Hs).
           destruct before as [|s0 before]; simplify_eq/=.
           ++ inversion Hfail; subst. congruence.
           ++ inversion Hfail; subst; [congruence|].
              rewrite Hf in *. done.
      * rewrite IH. split.
        -- intros (before & s' & after & b0 & Ho & Hfail & Ha & Hs).
           exists (s :: before), s', after, b0. subst rest.
           repeat split; try done.
           apply all_failed_fail; rewrite ?Hf; done.
        -- intros (before & s' & after & b0 & Ho & Hfail & Ha & Hs).
           destruct before as [|s0 before]; simplify_eq/=.
           ++ inversion Hfail; subst. congruence.
           ++ inversion Hfail; subst; [congruence|].
              rewrite Hf in *. cbn [snd] in *.
              by exists before, s', after, b0.
    + rewrite IH. split.
      * intros (before & s' & after & b0 & Ho & Hfail & Ha & Hs).
        exists (s :: before), s', after, b0. subst rest.
        repeat split; try done. by apply all_failed_skip.
      * intros (before & s' & after & b0 & Ho & Hfail & Ha & Hs).
        destruct before as [|s0 before]; simplify_eq/=.
        -- inversion Hfail; subst. congruence.
        -- inversion Hfail; subst; [|congruence].
           by exists before, s', after, b0.
Qed.

(** ** The plan cache *)

Lemma release_retain (p : hb_shape_plan_t) : release (retain p) = p.
Proof. by destruct p. Qed.

(** Acquisition hands out the plan cached under the key, logs itself and
    touches nothing but the cache and the log. *)
Lemma create_cached2_acquires (font : hb_font_t) (buffer : hb_buffer_t)
    (features : list hb_feature_t) (shaper_list : option (list string))
    (w : World) :
  let r := hb_shape_plan_create_cached2 (face font) (props buffer) features
             (coords font) shaper_list w in
  (∃ p, plans r.2 !! r.1 = Some p ∧
        plan_key p = key_of font buffer features shaper_list) ∧
  log r.2 = log w ++ [EvPlanAcquire r.1] ∧
  instance r.2 = instance w ∧ heap r.2 = heap w ∧
  mem_avail r.2 = mem_avail w ∧ atexit_handlers r.2 = atexit_handlers w.
Proof.
  unfold hb_shape_plan_create_cached2, bind, get_world, modify, ret.
  fold (key_of font buffer features shaper_list). cbv zeta.
  destruct (list_find _ (plans w)) as [[i p]|] eqn:Hfind; cbn.
  - apply list_find_Some in Hfind as (Hi & Hk & _).
    repeat split; try done.
    exists (retain p). split; [|done].
    apply list_lookup_insert_eq. by eapply lookup_lt_Some.
  - repeat split; try done.
    eexists. split; [by rewrite lookup_app_r, Nat.sub_diag|done].
Qed.

(** An acquisition followed by a release of the acquired plan leaves as many
    references outstanding, under every key, as there were. *)
Lemma acquire_release_balanced (font : hb_font_t) (buffer : hb_buffer_t)
    (features : list hb_feature_t) (shaper_list : option (list string))
    (w : World) (key : hb_shape_plan_key_t) :
  let r := hb_shape_plan_create_cached2 (face font) (props buffer) features
             (coords font) shaper_list w in
  sum_list (ref_count <$> filter (λ p, plan_key p = key)
                            (alter release r.1 (plans r.2)))
  = outstanding key w.
Proof.
  unfold hb_shape_plan_create_cached2, bind, get_world, modify, ret, outstanding.
  fold (key_of font buffer features shaper_list). cbv zeta.
  destruct (list_find _ (plans w)) as [[i p]|] eqn:Hfind; cbn.
  - apply list_find_Some in Hfind as (Hi & Hk & _).
    replace (alter release i (<[i:=retain p]> (plans w))) with (plans w); [done|].
    apply list_eq. intros j. destruct (decide (i = j)) as [<-|Hne].
    + rewrite list_lookup_alter_eq, list_lookup_insert_eq
        by (by eapply lookup_lt_Some).
      cbn. by rewrite release_retain.
    + by rewrite list_lookup_alter_ne, list_lookup_insert_ne.
  - rewrite <- (Nat.add_0_r (length (plans w))), alter_app_r.
    rewrite !filter_app, !fmap_app, !sum_list_with_app. cbn.
    case_decide; cbn; lia.
Qed.

(** ** [hb_shape_full] and [hb_shape] *)

(** The whole of a call: the acquisition, the chain run on the plan's
    order, the release. *)
Lemma hb_shape_full_run `{hb_shapers_t} (font : hb_font_t)
    (buffer : hb_buffer_t) (features : list hb_feature_t)
    (shaper_list : option (list string)) (w : World) :
  let a := hb_shape_plan_create_cached2 (face font) (props buffer) features
             (coords font) shaper_list w in
  let res := try_shapers (effective_shapers shaper_list) font buffer features in
  hb_shape_plan_execute a.1 font buffer features a.2
    = (res, emit (EvPlanExecute a.1 res.1) a.2) ∧
  hb_shape_full font buffer features shaper_list w
    = (res, emit (EvPlanRelease a.1)
              (set_plans (alter release a.1 (plans a.2))
                 (emit (EvPlanExecute a.1 res.1) a.2))).
Proof.
  cbv zeta.
  destruct (create_cached2_acquires font buffer features shaper_list w)
    as ((p & Hp & Hk) & _).
  unfold hb_shape_full, bind.
  destruct (hb_shape_plan_create_cached2 _ _ _ _ _ w) as [i w1].
  cbn [fst snd] in *.
  unfold hb_shape_plan_execute, hb_shape_plan_destroy, bind, get_world,
    modify, ret.
  rewrite Hp, Hk. cbn. done.
Qed.

Lemma hb_shape_run `{hb_shapers_t} (font : hb_font_t) (buffer : hb_buffer_t)
    (features : list hb_feature_t) (w : World) :
  hb_shape font buffer features w =
    ((hb_shape_full font buffer features None w).1.2,
     (hb_shape_full font buffer features None w).2).
Proof.
  unfold hb_shape, bind, ret.
  by destruct (hb_shape_full font buffer features None w) as [[ok b'] w'].
Qed.

(** C2: [hb_shape_full] returns the boolean that executing the acquired plan
    produces (and leaves the buffer as that execution leaves it): true
    exactly when a backend of the effective order succeeded after all before
    it were skipped or failed, false exactly when every backend of the order
    was skipped or failed; with an explicitly empty shaper list it returns
    false and the buffer is as it was. *)
Theorem hb_shape_full_result `{hb_shapers_t} (font : hb_font_t)
    (buffer : hb_buffer_t) (features : list hb_feature_t)
    (shaper_list : option (list string)) (w : World) :
  let acquired := hb_shape_plan_create_cached2 (face font) (props buffer)
                    features (coords font) shaper_list w in
  let r := hb_shape_full font buffer features shaper_list w in
  let order := effective_shapers shaper_list in
  r.1 = (hb_shape_plan_execute acquired.1 font buffer features acquired.2).1 ∧
  (r.1.1 = true ↔ first_success font features order buffer r.1.2) ∧
  (r.1.1 = false ↔ all_failed font features order buffer r.1.2) ∧
  (hb_shape_full font buffer features (Some []) w).1 = (false, buffer).
Proof.
  cbv zeta.
  destruct (hb_shape_full_run font buffer features shaper_list w) as [He Hf].
  destruct (hb_shape_full_run font buffer features (Some []) w) as [_ Hnil].
  cbv zeta in *. rewrite He, Hf, Hnil. cbn [fst snd].
  split; [done|].
  destruct (try_shapers _ font buffer features) as [ok b'] eqn:Hr.
  cbn [fst snd]. split; [|split; [|done]].
  - rewrite <- try_shapers_true, Hr. split; congruence.
  - rewrite <- try_shapers_false, Hr. split; congruence.
Qed.

(** C3: a call of [hb_shape_full] adds to the log the acquisition of a plan,
    its execution and one release of that same plan, in this order and
    nothing else, whatever the execution returned; and it leaves as many
    references outstanding, under every key, as there were before. *)
Theorem hb_shape_full_releases_plan `{hb_shapers_t} (font : hb_font_t)
    (buffer : hb_buffer_t) (features : list hb_feature_t)
    (shaper_list : option (list string)) (w : World) :
  let acquired := hb_shape_plan_create_cached2 (face font) (props buffer)
                    features (coords font) shaper_list w in
  let r := hb_shape_full font buffer features shaper_list w in
  log r.2 = log w ++ [EvPlanAcquire acquired.1;
                      EvPlanExecute acquired.1 r.1.1;
                      EvPlanRelease acquired.1] ∧
  (∀ key, outstanding key r.2 = outstanding key w).
Proof.
  cbv zeta.
  destruct (hb_shape_full_run font buffer features shaper_list w) as [_ Hf].
  destruct (create_cached2_acquires font buffer features shaper_list w)
    as (_ & Hlog & _).
  cbv zeta in *. rewrite Hf. cbn [fst snd]. split.
  - cbn [log emit set_plans]. rewrite Hlog, <- !app_assoc. done.
  - intros key. unfold outstanding at 1. cbn [plans emit set_plans].
    apply acquire_release_balanced.
Qed.

(** C4: [hb_shape] does to the buffer and to the process what
    [hb_shape_full] does when called with a null shaper list, that is with
    the compiled-in shapers in their priority order, and gives back none of
    the boolean. *)
Theorem hb_shape_is_hb_shape_full `{hb_shapers_t} (font : hb_font_t)
    (buffer : hb_buffer_t) (features : list hb_feature_t) (w : World) :
  let full := hb_shape_full font buffer features None w in
  hb_shape font buffer features w = (full.1.2, full.2) ∧
  full.1 = try_shapers _hb_shapers_get font buffer features.
Proof.
  cbv zeta. split.
  - apply hb_shape_run.
  - destruct (hb_shape_full_run font buffer features None w) as [_ Hf].
    cbv zeta in Hf. by rewrite Hf.
Qed.

(** ** [hb_justify] *)

(** The whole of a call with at least one target length: the shaping, the
    lookup of the space, the split. *)
Lemma hb_justify_run `{hb_shapers_t} (font : hb_font_t) (buffer : hb_buffer_t)
    (num_target_lengths : nat) (target_lengths : list hb_position_t)
    (features : list hb_feature_t) (space0 : hb_codepoint_t) (w : World) :
  num_target_lengths ≠ 0%nat →
  let shaped := hb_shape_full font buffer features None w in
  let looked := get_nominal_glyph font 32 space0 shaped.2 in
  hb_justify font buffer num_target_lengths target_lengths features space0 w
    = (shaped.1.2,
       emit (EvSplit shaped.1.2 num_target_lengths target_lengths looked.1.2)
            looked.2).
Proof.
  intros Hn. cbv zeta. unfold hb_justify. case_decide; [done|].
  unfold bind.
  destruct (hb_shape_full font buffer features None w) as [[ok b'] w1].
  cbn [fst snd].
  destruct (get_nominal_glyph font 32 space0 w1) as [[found g] w2].
  cbn [fst snd]. done.
Qed.

Lemma get_nominal_glyph_run (font : hb_font_t) (unicode glyph : hb_codepoint_t)
    (w : World) :
  get_nominal_glyph font unicode glyph w =
    match nominal_glyph font unicode with
    | Some g => ((true, g), emit (EvNominalGlyph unicode true) w)
    | None => ((false, glyph_not_found font glyph),
               emit (EvNominalGlyph unicode false) w)
    end.
Proof.
  unfold get_nominal_glyph, bind, modify, ret.
  by destruct (nominal_glyph font unicode).
Qed.

(** C1, as the code has it: with no target length [hb_justify] returns at
    once; the buffer is as it was passed in, not shaped, and the process
    state is untouched.  The buffer is then what [hb_shape] leaves on the
    same input exactly when the chain of the compiled-in shapers leaves the
    buffer as it was. *)
Theorem hb_justify_no_target_lengths `{hb_shapers_t} (font : hb_font_t)
    (buffer : hb_buffer_t) (target_lengths : list hb_position_t)
    (features : list hb_feature_t) (space0 : hb_codepoint_t) (w : World) :
  hb_justify font buffer 0 target_lengths features space0 w = (buffer, w) ∧
  ((hb_justify font buffer 0 target_lengths features space0 w).1
     = (hb_shape font buffer features w).1
   ↔ (try_shapers _hb_shapers_get font buffer features).2 = buffer).
Proof.
  split; [reflexivity|].
  rewrite hb_shape_run.
  destruct (hb_shape_full_run font buffer features None w) as [_ Hf].
  cbv zeta in Hf. rewrite Hf.
  change (hb_justify font buffer 0 target_lengths features space0 w)
    with (buffer, w).
  cbn [fst snd effective_shapers]. split; congruence.
Qed.

(** C7: in a call with at least one target length, after the events of the
    shaping come the lookup of the character 32, the plain space, in the
    font and then the split, and the break glyph the split is given is what
    that lookup left in [space]: the font's nominal glyph for the space. *)
Theorem hb_justify_break_glyph `{hb_shapers_t} (font : hb_font_t)
    (buffer : hb_buffer_t) (num_target_lengths : nat)
    (target_lengths : list hb_position_t) (features : list hb_feature_t)
    (space0 : hb_codepoint_t) (w : World) :
  num_target_lengths ≠ 0%nat →
  let shaped := hb_shape_full font buffer features None w in
  let looked := get_nominal_glyph font 32 space0 shaped.2 in
  let r := hb_justify font buffer num_target_lengths target_lengths features
             space0 w in
  log r.2 = log shaped.2 ++
            [EvNominalGlyph 32 looked.1.1;
             EvSplit shaped.1.2 num_target_lengths target_lengths looked.1.2] ∧
  (∀ g, nominal_glyph font 32 = Some g → looked.1 = (true, g)).
Proof.
  intros Hn. cbv zeta.
  rewrite (hb_justify_run font buffer _ target_lengths features space0 w Hn).
  cbv zeta. rewrite get_nominal_glyph_run. split.
  - destruct (nominal_glyph font 32); cbn; by rewrite <- app_assoc.
  - by intros g ->.
Qed.

(** C9: in a call with at least one target length the split is called, once
    and last, on the buffer as the shaping left it, whatever boolean
    [hb_shape_full] returned; what [hb_justify] gives back is the buffer and
    nothing else. *)
Theorem hb_justify_always_splits `{hb_shapers_t} (font : hb_font_t)
    (buffer : hb_buffer_t) (num_target_lengths : nat)
    (target_lengths : list hb_position_t) (features : list hb_feature_t)
    (space0 : hb_codepoint_t) (w : World) :
  num_target_lengths ≠ 0%nat →
  let shaped := hb_shape_full font buffer features None w in
  let r := hb_justify font buffer num_target_lengths target_lengths features
             space0 w in
  (∃ found g,
     log r.2 = log shaped.2 ++
               [EvNominalGlyph 32 found;
                EvSplit shaped.1.2 num_target_lengths target_lengths g]) ∧
  r.1 = shaped.1.2.
Proof.
  intros Hn. cbv zeta.
  rewrite (hb_justify_run font buffer _ target_lengths features space0 w Hn).
  cbv zeta. rewrite get_nominal_glyph_run. split; [|done].
  destruct (nominal_glyph font 32) as [g|]; cbn.
  - exists true, g. by rewrite <- app_assoc.
  - exists false, (glyph_not_found font space0). by rewrite <- app_assoc.
Qed.

(** ** Line splitting *)

Lemma advance_sum_cons (g : hb_glyph_t) (gs : list hb_glyph_t) :
  advance_sum (g :: gs) = x_advance g + advance_sum gs.
Proof. reflexivity. Qed.

(** Up to the overflow point the running advance stays within the target. *)
Lemma overflow_point_Some (target : hb_position_t) (gs : list hb_glyph_t) :
  ∀ (acc : Z) (i j : nat),
    overflow_point target acc gs i = Some j →
    (i ≤ j)%nat ∧ (j - i < length gs)%nat ∧
    ∀ m, (1 ≤ m ≤ j - i)%nat → acc + advance_sum (take m gs) ≤ target.
Proof.
  induction gs as [|g rest IH]; intros acc i j; cbn [overflow_point]; [done|].
  destruct (target <? acc + x_advance g) eqn:Hlt.
  - intros [= <-]. cbn [length]. repeat split; try lia.
  - apply Z.ltb_ge in Hlt.
    intros Hj. apply IH in Hj as (Hij & Hlen & Hsum). cbn [length].
    repeat split; try lia.
    intros [|m] Hm; [lia|]. cbn [take]. rewrite advance_sum_cons.
    destruct m as [|m].
    + change (advance_sum (take 0 rest)) with 0. lia.
    + specialize (Hsum (S m)). lia.
Qed.

Lemma overflow_point_None (target : hb_position_t) (gs : list hb_glyph_t) :
  ∀ (acc : Z) (i : nat),
    overflow_point target acc gs i = None →
    ∀ m, (1 ≤ m ≤ length gs)%nat → acc + advance_sum (take m gs) ≤ target.
Proof.
  induction gs as [|g rest IH]; intros acc i; cbn [overflow_point length];
    [lia|].
  destruct (target <? acc + x_advance g) eqn:Hlt; [done|].
  apply Z.ltb_ge in Hlt.
  intros Hn [|m] Hm; [lia|]. cbn [take]. rewrite advance_sum_cons.
  destruct m as [|m].
  - change (advance_sum (take 0 rest)) with 0. lia.
  - specialize (IH _ _ Hn (S m)). lia.
Qed.

(** The break found is a break glyph, after the first glyph of the line and
    not after the overflow point. *)
Lemma last_break_Some (break_glyph : hb_codepoint_t) (gs : list hb_glyph_t) :
  ∀ (j i : nat),
    last_break break_glyph gs j = Some i →
    (1 ≤ i ≤ j)%nat ∧ codepoint <$> gs !! i = Some break_glyph.
Proof.
  induction j as [|j IH]; intros i; cbn [last_break]; [done|].
  destruct (gs !! S j) as [g|] eqn:Hg.
  - destruct (codepoint g =? break_glyph) eqn:Heq.
    + intros [= <-]. rewrite Hg. cbn. split; [lia|]. f_equal. lia.
    + intros Hi. apply IH in Hi as [? ?]. split; [lia|done].
  - intros Hi. apply IH in Hi as [? ?]. split; [lia|done].
Qed.

(** A line of a buffer that is not empty holds at least one glyph, no more
    than there are, and its advance is within the target unless it is one
    glyph that alone exceeds it. *)
Lemma line_length_bounds (target : hb_position_t) (break_glyph : hb_codepoint_t)
    (gs : list hb_glyph_t) :
  gs ≠ [] →
  let n := line_length target break_glyph gs in
  (1 ≤ n ≤ length gs)%nat ∧
  (advance_sum (take n gs) ≤ target ∨ n = 1%nat).
Proof.
  intros Hne. cbv zeta. unfold line_length.
  assert (1 ≤ length gs)%nat by (destruct gs; [done|cbn; lia]).
  destruct (overflow_point target 0 gs 0) as [j|] eqn:Ho.
  - apply overflow_point_Some in Ho as (_ & Hj & Hsum).
    rewrite Nat.sub_0_r in *.
    destruct (last_break break_glyph gs j) as [i|] eqn:Hb.
    + apply last_break_Some in Hb as [Hi _].
      split; [lia|]. left. specialize (Hsum i). lia.
    + destruct j as [|j].
      * cbn. split; [lia|]. by right.
      * rewrite Nat.max_l by lia. split; [lia|].
        left. specialize (Hsum (S j)). lia.
  - split; [lia|]. left.
    pose proof (overflow_point_None _ _ _ _ Ho (length gs)). lia.
Qed.

Lemma target_of_line_tail (targets : list hb_position_t)
    (dflt : hb_position_t) (k : nat) :
  target_of_line (tail targets) (default dflt (head targets)) k
  = target_of_line targets dflt (S k).
Proof.
  unfold target_of_line. destruct targets as [|t r]; [done|].
  cbn [tail head default lookup list_lookup].
  rewrite last_cons. by destruct (last r).
Qed.

Lemma target_of_line_0 (targets : list hb_position_t) (dflt : hb_position_t) :
  target_of_line targets dflt 0 = default dflt (head targets).
Proof. unfold target_of_line. by destruct targets. Qed.

(** Line [k] starts at or after the start, within the buffer, and is cut
    for the target length of line [k]. *)
Lemma split_lines_lookup (break_glyph : hb_codepoint_t) (fuel : nat) :
  ∀ (start : nat) (gs : list hb_glyph_t) (targets : list hb_position_t)
    (dflt : hb_position_t) (k s e : nat),
    split_lines fuel start gs targets dflt break_glyph !! k = Some (s, e) →
    (start ≤ s)%nat ∧ (s - start < length gs)%nat ∧
    e = (s + line_length (target_of_line targets dflt k) break_glyph
                         (drop (s - start) gs))%nat.
Proof.
  induction fuel as [|fuel IH]; intros start gs targets dflt k s e;
    cbn [split_lines]; [done|].
  destruct gs as [|g rest] eqn:Hgs; [done|]. rewrite <- Hgs.
  assert (Hne : gs ≠ []) by (by subst).
  destruct k as [|k]; cbn [lookup list_lookup].
  - intros [= <- <-]. rewrite Nat.sub_diag, target_of_line_0. cbn [drop].
    repeat split; try lia. subst gs. cbn. lia.
  - intros Hk. apply IH in Hk as (Hs & Hlen & He).
    pose proof (line_length_bounds (default dflt (head targets)) break_glyph
                  gs Hne) as [Hn _]. cbv zeta in Hn.
    rewrite length_drop in Hlen.
    rewrite target_of_line_tail, drop_drop in He.
    repeat split; try lia.
    rewrite He. do 3 f_equal. lia.
Qed.

(** The lines follow one another and together are the whole buffer: with as
    much fuel as there are glyphs the split runs to the end. *)
Lemma split_lines_partition (break_glyph : hb_codepoint_t) (fuel : nat) :
  ∀ (start : nat) (gs : list hb_glyph_t) (targets : list hb_position_t)
    (dflt : hb_position_t),
    (length gs ≤ fuel)%nat →
    concat ((λ l, take (l.2 - l.1) (drop (l.1 - start) gs)) <$>
            split_lines fuel start gs targets dflt break_glyph) = gs.
Proof.
  induction fuel as [|fuel IH]; intros start gs targets dflt Hfuel.
  - destruct gs; [done|cbn in Hfuel; lia].
  - cbn [split_lines]. destruct gs as [|g rest] eqn:Hgs; [done|].
    rewrite <- Hgs in *. assert (Hne : gs ≠ []) by (by subst).
    set (target := default dflt (head targets)).
    pose proof (line_length_bounds target break_glyph gs Hne) as [Hn _].
    cbv zeta in Hn. set (n := line_length target break_glyph gs) in *.
    cbn [fmap list_fmap concat fst snd].
    replace (start + n - start)%nat with n by lia.
    rewrite Nat.sub_diag. cbn [drop].
    rewrite <- (take_drop n gs) at 3. f_equal.
    rewrite <- (IH (start + n)%nat (drop n gs) (tail targets) target) at 2
      by (rewrite length_drop; cbn [length] in Hfuel; subst gs; cbn [length] in *; lia).
    f_equal. apply Forall_fmap_ext, Forall_lookup. intros i [s e] Hi.
    apply split_lines_lookup in Hi as (Hs & _ & _). cbn [fst snd].
    rewrite drop_drop. do 2 f_equal. lia.
Qed.

(** C8: a line beyond the supplied count, line [k] with
    [num_target_lengths ≤ k] counted from 0, is cut for the last supplied
    target length [t]: it ends where a line cut for [t] ends, and its
    advance is within [t] unless it is one glyph that alone exceeds [t]. *)
Theorem hb_split_buffer_to_lines_repeats_last (buffer : hb_buffer_t)
    (num_target_lengths : nat) (target_lengths : list hb_position_t)
    (break_glyph : hb_codepoint_t) (w : World) (t : hb_position_t)
    (k s e : nat) :
  num_target_lengths ≠ 0%nat →
  target_lengths !! (num_target_lengths - 1)%nat = Some t →
  (num_target_lengths ≤ k)%nat →
  (hb_split_buffer_to_lines buffer num_target_lengths target_lengths
     break_glyph w).1 !! k = Some (s, e) →
  e = (s + line_length t break_glyph (drop s (glyphs buffer)))%nat ∧
  (advance_sum (take (e - s) (drop s (glyphs buffer))) ≤ t ∨ e = S s).
Proof.
  intros Hn Ht Hk. unfold hb_split_buffer_to_lines, bind, modify, ret.
  cbn [fst]. unfold split_buffer. cbv zeta.
  assert (Hlen : (num_target_lengths ≤ length target_lengths)%nat).
  { apply lookup_lt_Some in Ht. lia. }
  assert (Hlast : last (take num_target_lengths target_lengths) = Some t).
  { rewrite last_lookup, length_take_le by done.
    rewrite lookup_take_lt by lia.
    by replace (pred num_target_lengths) with (num_target_lengths - 1)%nat by lia. }
  assert (Hnone : take num_target_lengths target_lengths !! k = None).
  { apply lookup_take_ge. lia. }
  destruct (take num_target_lengths target_lengths) as [|t0 r] eqn:Htake;
    [done|].
  intros Hline. apply split_lines_lookup in Hline as (_ & Hs & He).
  rewrite Nat.sub_0_r in *.
  unfold target_of_line in He. rewrite Hlast, Hnone in He.
  cbn [default from_option] in He. unfold id in He.
  split; [done|].
  assert (Hne : drop s (glyphs buffer) ≠ []).
  { intros Hnil. apply (f_equal length) in Hnil.
    rewrite length_drop in Hnil. cbn in Hnil. lia. }
  destruct (line_length_bounds t break_glyph _ Hne) as [_ Hb].
  cbv zeta in Hb. rewrite He.
  replace (s + _ - s)%nat with (line_length t break_glyph (drop s (glyphs buffer)))
    by lia.
  destruct Hb as [Hb| ->]; [by left|right; lia].
Qed.

(** ** The definitions at work *)

(** A process short of memory gets the degenerate list, and keeps getting it
    even once memory is to be had again. *)
Example shaper_list_failed_static :
  let first := hb_shape_list_shapers (H := Sample.shapers) (Sample.boot 10) in
  let later := set_heap (heap first.2) 1000 first.2 in
  first.1 = static_nil_shaper_list ∧
  (hb_shape_list_shapers (H := Sample.shapers) later).1 = static_nil_shaper_list.
Proof. by vm_compute. Qed.

Example shaper_list_of_sample :
  let r := hb_shape_list_shapers (H := Sample.shapers) (Sample.boot 1000) in
  load r.2 r.1 = Some [Some "broken"; Some "ot"; None].
Proof. by vm_compute. Qed.

(** The finalizer registered by the construction gives the block back. *)
Example shaper_list_freed_at_exit :
  let r := hb_shape_list_shapers (H := Sample.shapers) (Sample.boot 1000) in
  let w := (run_atexit_fn free_static_shaper_list_fn r.2).2 in
  atexit_handlers r.2 = [free_static_shaper_list_fn] ∧
  instance w = nullptr ∧ load w r.1 = None ∧ mem_avail w = 1000%nat.
Proof. by vm_compute. Qed.

(** The default order falls back from the failing backend to the next. *)
Example shape_full_falls_back :
  (hb_shape_full (H := Sample.shapers) Sample.font Sample.words [] None
     (Sample.boot 0)).1 = (true, Sample.shaped_words).
Proof. by vm_compute. Qed.

Example shape_full_named_unknown :
  (hb_shape_full (H := Sample.shapers) Sample.font Sample.words []
     (Some ["uniscribe"; "broken"]) (Sample.boot 0)).1 = (false, Sample.words).
Proof. by vm_compute. Qed.

(** Two target lengths, four lines: the third and the fourth line are thirty
    units long, more than the first target length and within the second. *)
Example split_two_targets_four_lines :
  split_buffer Sample.shaped_words 2 [20; 30] 3
    = [(0, 2); (2, 5); (5, 8); (8, 11)]%nat ∧
  advance_sum (take 3 (drop 5 (glyphs Sample.shaped_words))) = 30 ∧
  advance_sum (take 3 (drop 8 (glyphs Sample.shaped_words))) = 30.
Proof. by vm_compute. Qed.

(** Without a break glyph before the overflow point the line is cut at the
    overflow point. *)
Example split_hard_break :
  split_buffer Sample.shaped_words 1 [20] 99
    = [(0, 2); (2, 4); (4, 6); (6, 8); (8, 10); (10, 11)]%nat.
Proof. by vm_compute. Qed.

(** ** Instances *)

(** C1, as stated, fails: with no target length the buffer stays text, while
    [hb_shape] on the same input turns it into glyphs. *)
Lemma hb_justify_no_target_lengths_differs_from_hb_shape :
  (hb_justify (H := Sample.shapers) Sample.font Sample.words 0 [] [] 0
     (Sample.boot 0)).1
  ≠ (hb_shape (H := Sample.shapers) Sample.font Sample.words []
       (Sample.boot 0)).1.
Proof. intros E. apply (f_equal content_type) in E. vm_compute in E. discriminate E. Qed.

Lemma hb_shape_list_shapers_alloc_failure_witness :
  instance (Sample.boot 10) = nullptr ∧
  (hb_calloc (1 + HB_SHAPERS_COUNT (H := Sample.shapers)) sizeof_ptr
     (Sample.boot 10)).1 = nullptr ∧
  (hb_shape_list_shapers (H := Sample.shapers) (Sample.boot 10)).1
    = static_nil_shaper_list.
Proof.
  split; [reflexivity|]. split; [reflexivity|].
  apply (hb_shape_list_shapers_alloc_failure (H := Sample.shapers)
           (Sample.boot 10)); reflexivity.
Defined.

Lemma hb_justify_break_glyph_witness :
  2%nat ≠ 0%nat ∧
  log (hb_justify (H := Sample.shapers) Sample.font Sample.words 2 [20; 30]
         [] 77 (Sample.boot 0)).2
  = [EvPlanAcquire 0; EvPlanExecute 0 true; EvPlanRelease 0;
     EvNominalGlyph 32 true; EvSplit Sample.shaped_words 2 [20; 30] 3].
Proof.
  split; [discriminate|].
  apply (hb_justify_break_glyph (H := Sample.shapers) Sample.font Sample.words
           2 [20; 30] [] 77 (Sample.boot 0)).
  discriminate.
Defined.

(** Every backend fails, and the split is called all the same. *)
Lemma hb_justify_always_splits_witness :
  2%nat ≠ 0%nat ∧
  (hb_shape_full (H := Sample.broken_only) Sample.font Sample.words [] None
     (Sample.boot 0)).1.1 = false ∧
  ∃ found g,
    log (hb_justify (H := Sample.broken_only) Sample.font Sample.words 2
           [20; 30] [] 77 (Sample.boot 0)).2
    = [EvPlanAcquire 0; EvPlanExecute 0 false; EvPlanRelease 0;
       EvNominalGlyph 32 found; EvSplit Sample.words 2 [20; 30] g].
Proof.
  split; [discriminate|]. split; [reflexivity|].
  apply (hb_justify_always_splits (H := Sample.broken_only) Sample.font
           Sample.words 2 [20; 30] [] 77 (Sample.boot 0)).
  discriminate.
Defined.

Lemma hb_split_buffer_to_lines_repeats_last_witness :
  2%nat ≠ 0%nat ∧
  [20; 30] !! (2 - 1)%nat = Some 30 ∧
  (2 ≤ 3)%nat ∧
  (hb_split_buffer_to_lines Sample.shaped_words 2 [20; 30] 3
     (Sample.boot 0)).1 !! 3%nat = Some (8, 11)%nat ∧
  (11 = 8 + line_length 30 3 (drop 8 (glyphs Sample.shaped_words)))%nat ∧
  (advance_sum (take (11 - 8) (drop 8 (glyphs Sample.shaped_words))) ≤ 30
   ∨ 11%nat = 9%nat).
Proof.
  split; [discriminate|]. split; [reflexivity|]. split; [lia|].
  split; [reflexivity|].
  apply (hb_split_buffer_to_lines_repeats_last Sample.shaped_words 2 [20; 30]
           3 (Sample.boot 0) 30 3 8 11);
    [discriminate|reflexivity|lia|reflexivity].
Defined.


(** * Further properties of the code *)

(** ** Construction of the shaper list, step by step *)

Lemma set_heap_id (w : World) : set_heap (heap w) (mem_avail w) w = w.
Proof. by destruct w. Qed.

Lemma store_run (a i : nat) (v : option string) (w : World)
    (blk : list (option string)) :
  heap w !! a = Some (Some blk) →
  store (heap_block a) i v w =
    (tt, set_heap (<[a := Some (<[i := v]> blk)]> (heap w)) (mem_avail w) w).
Proof. intros Ha. unfold store. by rewrite Ha. Qed.

(** The state the copying loop leaves: the one block rewritten, all else as
    it was. *)
Lemma copy_names_run (a : nat) (shapers : list hb_shaper_entry_t) :
  ∀ (i : nat) (w : World) (blk : list (option string)),
    heap w !! a = Some (Some blk) →
    (i + length shapers ≤ length blk)%nat →
    copy_names (heap_block a) i shapers w =
      ((i + length shapers)%nat,
       set_heap (<[a := Some (take i blk ++ (Some ∘ name <$> shapers)
                                ++ drop (i + length shapers) blk)]> (heap w))
                (mem_avail w) w).
Proof.
  induction shapers as [|s rest IH]; intros i w blk Ha Hlen; cbn [copy_names].
  - unfold ret. cbn [length fmap list_fmap app].
    rewrite Nat.add_0_r, take_drop, list_insert_id, set_heap_id by done. done.
  - cbn [length] in Hlen. unfold bind. rewrite (store_run a i _ w blk Ha).
    pose proof (lookup_lt_Some _ _ _ Ha) as Hlt.
    rewrite (IH (S i) _ (<[i := Some (name s)]> blk)).
    2:{ cbn [heap set_heap]. by apply list_lookup_insert_eq. }
    2:{ rewrite length_insert. lia. }
    cbn [heap set_heap mem_avail]. rewrite list_insert_insert_eq.
    f_equal; [cbn; lia|].
    unfold set_heap. cbn. do 3 f_equal.
    rewrite (take_S_r _ i (Some (name s))).
    2:{ apply list_lookup_insert_eq. lia. }
    rewrite take_insert_ge by lia.
    rewrite drop_insert_lt by lia.
    rewrite <- app_assoc. cbn.
    by replace (i + S (length rest))%nat with (S (i + length rest))%nat by lia.
Qed.

(** The whole of a construction that gets its memory. *)
Lemma create_run `{hb_shapers_t} (w : World) :
  ((1 + HB_SHAPERS_COUNT) * sizeof_ptr ≤ mem_avail w)%nat →
  create w =
    (heap_block (length (heap w)),
     set_atexit_handlers (atexit_handlers w ++ [free_static_shaper_list_fn])
       (set_heap
          (heap w ++ [Some ((Some ∘ name <$> _hb_shapers_get) ++ [None])])
          (mem_avail w - (1 + HB_SHAPERS_COUNT) * sizeof_ptr) w)).
Proof.
  intros Hmem. unfold create, bind.
  rewrite hb_calloc_done by done. cbn [is_null].
  set (n := length (heap w)).
  set (blk := replicate (1 + HB_SHAPERS_COUNT) (@None string)).
  set (w0 := set_heap _ _ w).
  assert (H0 : heap w0 !! n = Some (Some blk)).
  { unfold w0, n. cbn [heap set_heap]. by rewrite lookup_app_r, Nat.sub_diag. }
  rewrite (copy_names_run n _hb_shapers_get 0 w0 blk H0).
  2:{ unfold blk. rewrite length_replicate. unfold HB_SHAPERS_COUNT. lia. }
  cbn [Nat.add take app].
  set (blk1 := (Some ∘ name <$> _hb_shapers_get) ++ _).
  rewrite (store_run n _ None _ blk1).
  2:{ cbn [heap set_heap]. apply list_lookup_insert_eq.
      by eapply lookup_lt_Some. }
  unfold hb_atexit, modify, ret. cbn [heap set_heap mem_avail atexit_handlers].
  rewrite list_insert_insert_eq.
  f_equal. unfold set_atexit_handlers, set_heap, w0. cbn. f_equal.
  unfold n. rewrite <- (Nat.add_0_r (length (heap w))), insert_app_r. cbn.
  do 3 f_equal. unfold blk1, blk, HB_SHAPERS_COUNT.
  rewrite drop_replicate.
  replace (1 + length _hb_shapers_get - length _hb_shapers_get)%nat
    with 1%nat by lia.
  cbn [replicate]. apply list_insert_id.
  by rewrite lookup_app_r, length_fmap, Nat.sub_diag by (rewrite length_fmap; lia).
Qed.

Lemma load_app_other (w w' : World) (x : option (list (option string)))
    (p : ptr) :
  heap w' = heap w ++ [x] →
  p ≠ heap_block (length (heap w)) →
  load w' p = load w p.
Proof.
  intros Hh Hp. destruct p as [| |a]; try done.
  unfold load. rewrite Hh.
  destruct (decide (a < length (heap w))%nat) as [Hlt|Hge].
  - by rewrite lookup_app_l.
  - assert (a ≠ length (heap w)) by congruence.
    rewrite !lookup_ge_None_2; [done|lia|rewrite length_app; cbn; lia].
Qed.

(** X1: a construction that gets its memory gives a new block of
    [1 + HB_SHAPERS_COUNT] cells: cell [i] holds the name of the [i]-th
    compiled-in shaper, the last cell the null, so that the array read up to
    its first null is the names in the table's order; no other array is
    written to. *)
Theorem create_fills_new_block `{hb_shapers_t} (w : World) :
  ((1 + HB_SHAPERS_COUNT) * sizeof_ptr ≤ mem_avail w)%nat →
  let r := create w in
  load w r.1 = None ∧
  (∃ cells,
     load r.2 r.1 = Some cells ∧
     length cells = (1 + HB_SHAPERS_COUNT)%nat ∧
     (∀ i s, _hb_shapers_get !! i = Some s → cells !! i = Some (Some (name s))) ∧
     cells !! HB_SHAPERS_COUNT = Some None ∧
     until_null cells = name <$> _hb_shapers_get) ∧
  (∀ p, p ≠ r.1 → load r.2 p = load w p).
Proof.
  intros Hmem. cbv zeta. rewrite (create_run w Hmem). cbn [fst snd].
  split; [|split].
  - unfold load. by rewrite lookup_ge_None_2.
  - eexists. split.
    { unfold load. cbn [heap set_heap set_atexit_handlers].
      by rewrite lookup_app_r, Nat.sub_diag. }
    split; [|split; [|split]].
    + rewrite length_app, length_fmap. unfold HB_SHAPERS_COUNT. cbn. lia.
    + intros i s Hi. rewrite lookup_app_l
        by (rewrite length_fmap; by eapply lookup_lt_Some).
      by rewrite list_lookup_fmap, Hi.
    + unfold HB_SHAPERS_COUNT.
      by rewrite lookup_app_r, length_fmap, Nat.sub_diag
        by (rewrite length_fmap; lia).
    + apply until_null_names.
  - intros p Hp. by eapply load_app_other.
Qed.

(** X2: what a construction costs.  A failed one returns the null pointer
    and changes nothing, so nothing is registered and nothing is held; a
    successful one takes exactly the bytes of its block and registers the
    finalizer once, after the handlers already there.  Neither publishes the
    list nor touches the plan cache or the log. *)
Theorem create_accounting `{hb_shapers_t} (w : World) :
  let r := create w in
  (r.1 = nullptr → r.2 = w) ∧
  (r.1 ≠ nullptr →
     (mem_avail r.2 + (1 + HB_SHAPERS_COUNT) * sizeof_ptr)%nat = mem_avail w ∧
     atexit_handlers r.2 = atexit_handlers w ++ [free_static_shaper_list_fn]) ∧
  instance r.2 = instance w ∧ plans r.2 = plans w ∧ log r.2 = log w.
Proof.
  cbv zeta.
  destruct (decide ((1 + HB_SHAPERS_COUNT) * sizeof_ptr ≤ mem_avail w)%nat)
    as [Hmem|Hno].
  - rewrite (create_run w Hmem). cbn [fst snd]. split; [done|].
    split; [|done]. intros _. cbn [mem_avail atexit_handlers
      set_atexit_handlers set_heap]. split; [lia|done].
  - assert (Hf : (hb_calloc (1 + HB_SHAPERS_COUNT) sizeof_ptr w).1 = nullptr).
    { unfold hb_calloc. by case_decide. }
    rewrite (create_failed w Hf). cbn [fst snd]. done.
Qed.

(** X3: [destroy] undoes what a successful [create] took: after
    [destroy (create ())] as many bytes are to be had as before, the block
    is gone, and every other array is as it was. *)
Theorem create_destroy_round_trip `{hb_shapers_t} (w : World) :
  ((1 + HB_SHAPERS_COUNT) * sizeof_ptr ≤ mem_avail w)%nat →
  let c := create w in
  let d := destroy c.1 c.2 in
  mem_avail d.2 = mem_avail w ∧
  load d.2 c.1 = None ∧
  (∀ p, p ≠ c.1 → load d.2 p = load w p).
Proof.
  intros Hmem. cbv zeta. rewrite (create_run w Hmem). cbn [fst snd].
  unfold destroy, hb_free. cbn [heap set_heap set_atexit_handlers].
  rewrite lookup_app_r, Nat.sub_diag by done. cbn [lookup list_lookup snd].
  set (cells := (Some ∘ name <$> _hb_shapers_get) ++ [None]).
  assert (Hins : <[length (heap w) := None]> (heap w ++ [Some cells])
                 = heap w ++ [None]).
  { rewrite <- (Nat.add_0_r (length (heap w))) at 1. by rewrite insert_app_r. }
  rewrite Hins. cbn [mem_avail set_heap set_atexit_handlers].
  split; [|split].
  - unfold cells. rewrite length_app, length_fmap.
    unfold HB_SHAPERS_COUNT in *. cbn [length] in *. lia.
  - unfold load. cbn [heap set_heap]. by rewrite lookup_app_r, Nat.sub_diag.
  - intros p Hp. by eapply load_app_other.
Qed.

(** ** The list over the life of the process *)

(** X4: in a process that has not built the list yet, [hb_shape_list_shapers]
    gives a pointer that is not null, to an array that ends in a null (the
    zero-terminated array the documentation promises): the names of the
    compiled-in shapers when the block was to be had, no name at all when it
    was not. *)
Theorem hb_shape_list_shapers_zero_terminated `{hb_shapers_t} (w : World) :
  instance w = nullptr →
  let r := hb_shape_list_shapers w in
  r.1 ≠ nullptr ∧
  ∃ cells,
    load r.2 r.1 = Some cells ∧
    last cells = Some None ∧
    until_null cells =
      if decide ((1 + HB_SHAPERS_COUNT) * sizeof_ptr ≤ mem_avail w)%nat
      then name <$> _hb_shapers_get else [].
Proof.
  intros Hi. cbv zeta. unfold hb_shape_list_shapers, get_unconst.
  rewrite get_stored_first by (rewrite Hi; reflexivity). cbv zeta.
  case_decide as Hmem.
  - rewrite (create_run w Hmem). cbn [fst snd is_null]. split; [done|].
    eexists. split.
    { unfold load. cbn [heap set_heap set_atexit_handlers set_instance].
      by rewrite lookup_app_r, Nat.sub_diag. }
    split; [apply last_snoc|apply until_null_names].
  - assert (Hf : (hb_calloc (1 + HB_SHAPERS_COUNT) sizeof_ptr w).1 = nullptr).
    { unfold hb_calloc. by case_decide. }
    rewrite (create_failed w Hf). cbn [fst snd is_null]. split; [done|].
    by exists [None].
Qed.

Lemma free_static_shaper_list_null (w : World) :
  instance w = nullptr → free_static_shaper_list w = (tt, w).
Proof.
  intros Hi. unfold free_static_shaper_list, free_instance, bind, get_world.
  cbn. by rewrite Hi.
Qed.

Lemma run_handlers_null (l : list atexit_fn) (w : World) :
  instance w = nullptr → run_handlers l w = (tt, w).
Proof.
  intros Hi. induction l as [|[] l IH]; [done|].
  cbn [run_handlers run_atexit_fn]. unfold bind.
  by rewrite free_static_shaper_list_null.
Qed.

(** X5: however often the list is asked for, the finalizer is registered
    once; at process exit it takes the list back: no list is published any
    more, the block is gone, as many bytes are to be had as before the list
    was built, and every other array is as it was. *)
Theorem shaper_list_released_at_exit `{hb_shapers_t} (w : World) :
  instance w = nullptr →
  ((1 + HB_SHAPERS_COUNT) * sizeof_ptr ≤ mem_avail w)%nat →
  let first := hb_shape_list_shapers w in
  let second := hb_shape_list_shapers first.2 in
  let e := run_atexit second.2 in
  atexit_handlers second.2 = atexit_handlers w ++ [free_static_shaper_list_fn] ∧
  instance e.2 = nullptr ∧
  mem_avail e.2 = mem_avail w ∧
  load e.2 first.1 = None ∧
  (∀ p, p ≠ first.1 → load e.2 p = load w p).
Proof.
  intros Hi Hmem. cbv zeta. unfold hb_shape_list_shapers, get_unconst.
  rewrite (get_stored_first w) by (rewrite Hi; reflexivity). cbv zeta.
  rewrite (create_run w Hmem). cbn [fst snd is_null].
  rewrite get_stored_cached by done. cbn [fst snd].
  split; [done|].
  unfold run_atexit, bind, get_world.
  cbn [atexit_handlers set_instance set_atexit_handlers set_heap].
  rewrite reverse_snoc. cbn [run_handlers run_atexit_fn]. unfold bind.
  set (cells := (Some ∘ name <$> _hb_shapers_get) ++ [None]).
  assert (Hins : <[length (heap w) := None]> (heap w ++ [Some cells])
                 = heap w ++ [None]).
  { rewrite <- (Nat.add_0_r (length (heap w))) at 1. by rewrite insert_app_r. }
  unfold free_static_shaper_list, free_instance, bind, get_world, modify, ret.
  cbn [instance set_instance is_null].
  rewrite decide_False by done.
  unfold destroy, hb_free.
  cbn [heap set_heap set_instance set_atexit_handlers].
  rewrite lookup_app_r, Nat.sub_diag by done. cbn [lookup list_lookup].
  rewrite Hins, run_handlers_null by done.
  cbn [snd instance mem_avail set_heap set_instance set_atexit_handlers].
  split; [done|]. split; [|split].
  - unfold cells. rewrite length_app, length_fmap.
    unfold HB_SHAPERS_COUNT in *. cbn [length] in *. lia.
  - unfold load. cbn [heap set_heap]. by rewrite lookup_app_r, Nat.sub_diag.
  - intros p Hp. by eapply load_app_other.
Qed.

(** ** Shaping through the other entry points *)

(** X6: with at least one target length [hb_justify] shapes the buffer as
    [hb_shape] does on the same input: the buffer it leaves, the plan cache,
    the heap and the published list are those [hb_shape] leaves, and the log
    is [hb_shape]'s followed by the lookup of the space and the split of
    that buffer, with the glyph the lookup left in [space]. *)
Theorem hb_justify_shapes_like_hb_shape `{hb_shapers_t} (font : hb_font_t)
    (buffer : hb_buffer_t) (num_target_lengths : nat)
    (target_lengths : list hb_position_t) (features : list hb_feature_t)
    (space0 : hb_codepoint_t) (w : World) :
  num_target_lengths ≠ 0%nat →
  let s := hb_shape font buffer features w in
  let looked := get_nominal_glyph font 32 space0 s.2 in
  let r := hb_justify font buffer num_target_lengths target_lengths features
             space0 w in
  r.1 = s.1 ∧
  plans r.2 = plans s.2 ∧ heap r.2 = heap s.2 ∧ instance r.2 = instance s.2 ∧
  log r.2 = log s.2 ++
            [EvNominalGlyph 32 looked.1.1;
             EvSplit s.1 num_target_lengths target_lengths looked.1.2].
Proof.
  intros Hn. cbv zeta.
  rewrite (hb_justify_run font buffer _ target_lengths features space0 w Hn).
  rewrite hb_shape_run. cbv zeta. cbn [fst snd].
  rewrite !get_nominal_glyph_run.
  destruct (nominal_glyph font 32) as [g|]; cbn; by rewrite <- app_assoc.
Qed.

(** In a table of distinct names a name finds the entry it came from. *)
Lemma find_unique_name (l : list hb_shaper_entry_t) (s : hb_shaper_entry_t) :
  NoDup (name <$> l) → s ∈ l →
  List.find (λ x, bool_decide (name x = name s)) l = Some s.
Proof.
  induction l as [|x l IH]; intros Hnd Hs; [by apply elem_of_nil in Hs|].
  cbn [fmap list_fmap] in Hnd. apply NoDup_cons in Hnd as [Hx Hnd].
  cbn [List.find]. case_bool_decide as Hname.
  - apply elem_of_cons in Hs as [->|Hs]; [done|].
    exfalso. apply Hx. rewrite Hname. apply list_elem_of_fmap. eauto.
  - apply elem_of_cons in Hs as [->|Hs]; [done|]. by apply IH.
Qed.

Lemma omap_find_shaper_names `{hb_shapers_t} (l : list hb_shaper_entry_t) :
  NoDup (name <$> _hb_shapers_get) →
  l ⊆ _hb_shapers_get →
  omap find_shaper (name <$> l) = l.
Proof.
  intros Hnd. induction l as [|s l IH]; intros Hsub; [done|].
  cbn [fmap list_fmap omap list_omap]. unfold find_shaper at 1.
  rewrite find_unique_name; [|done|apply Hsub; left].
  f_equal. apply IH. intros x Hx. apply Hsub. by right.
Qed.

(** X7: when the compiled-in shapers have distinct names, the list that
    [hb_shape_list_shapers] builds names the default order: given to
    [hb_shape_full] as [shaper_list] it makes the call return the boolean
    and leave the buffer that the call with the null list does. *)
Theorem hb_shape_full_with_listed_shapers `{hb_shapers_t} (font : hb_font_t)
    (buffer : hb_buffer_t) (features : list hb_feature_t) (w w' : World) :
  instance w = nullptr →
  ((1 + HB_SHAPERS_COUNT) * sizeof_ptr ≤ mem_avail w)%nat →
  NoDup (name <$> _hb_shapers_get) →
  let r := hb_shape_list_shapers w in
  ∃ cells,
    load r.2 r.1 = Some cells ∧
    (hb_shape_full font buffer features (Some (until_null cells)) w').1
      = (hb_shape_full font buffer features None w').1.
Proof.
  intros Hi Hmem Hnd. cbv zeta. unfold hb_shape_list_shapers, get_unconst.
  rewrite get_stored_first by (rewrite Hi; reflexivity). cbv zeta.
  rewrite (create_run w Hmem). cbn [fst snd is_null].
  eexists. split.
  { unfold load. cbn [heap set_heap set_atexit_handlers set_instance].
    by rewrite lookup_app_r, Nat.sub_diag. }
  rewrite until_null_names.
  destruct (hb_shape_full_run font buffer features
              (Some (name <$> _hb_shapers_get)) w') as [_ ->].
  destruct (hb_shape_full_run font buffer features None w') as [_ ->].
  cbn [fst effective_shapers].
  by rewrite omap_find_shaper_names.
Qed.

(** ** Instances of the further properties *)

Lemma create_fills_new_block_witness :
  ((1 + HB_SHAPERS_COUNT (H := Sample.shapers)) * sizeof_ptr
     ≤ mem_avail (Sample.boot 1000))%nat ∧
  ∀ p, p ≠ (create (H := Sample.shapers) (Sample.boot 1000)).1 →
       load (create (H := Sample.shapers) (Sample.boot 1000)).2 p
       = load (Sample.boot 1000) p.
Proof.
  split; [vm_compute; lia|].
  apply (create_fills_new_block (H := Sample.shapers) (Sample.boot 1000)).
  vm_compute; lia.
Defined.

Lemma create_destroy_round_trip_witness :
  ((1 + HB_SHAPERS_COUNT (H := Sample.shapers)) * sizeof_ptr
     ≤ mem_avail (Sample.boot 1000))%nat ∧
  mem_avail (destroy (create (H := Sample.shapers) (Sample.boot 1000)).1
               (create (H := Sample.shapers) (Sample.boot 1000)).2).2
  = 1000%nat.
Proof.
  split; [vm_compute; lia|].
  apply (create_destroy_round_trip (H := Sample.shapers) (Sample.boot 1000)).
  vm_compute; lia.
Defined.

Lemma hb_shape_list_shapers_zero_terminated_witness :
  instance (Sample.boot 10) = nullptr ∧
  (hb_shape_list_shapers (H := Sample.shapers) (Sample.boot 10)).1 ≠ nullptr.
Proof.
  split; [reflexivity|].
  apply (hb_shape_list_shapers_zero_terminated (H := Sample.shapers)
           (Sample.boot 10)).
  reflexivity.
Defined.

Lemma shaper_list_released_at_exit_witness :
  instance (Sample.boot 1000) = nullptr ∧
  ((1 + HB_SHAPERS_COUNT (H := Sample.shapers)) * sizeof_ptr
     ≤ mem_avail (Sample.boot 1000))%nat ∧
  atexit_handlers
    (hb_shape_list_shapers (H := Sample.shapers)
       (hb_shape_list_shapers (H := Sample.shapers) (Sample.boot 1000)).2).2
  = [free_static_shaper_list_fn].
Proof.
  split; [reflexivity|]. split; [vm_compute; lia|].
  apply (shaper_list_released_at_exit (H := Sample.shapers) (Sample.boot 1000));
    [reflexivity|vm_compute; lia].
Defined.

Lemma hb_justify_shapes_like_hb_shape_witness :
  2%nat ≠ 0%nat ∧
  (hb_justify (H := Sample.shapers) Sample.font_no_space Sample.words 2
     [20; 30] [] 77 (Sample.boot 0)).1
  = (hb_shape (H := Sample.shapers) Sample.font_no_space Sample.words []
       (Sample.boot 0)).1.
Proof.
  split; [discriminate|].
  apply (hb_justify_shapes_like_hb_shape (H := Sample.shapers)
           Sample.font_no_space Sample.words 2 [20; 30] [] 77 (Sample.boot 0)).
  discriminate.
Defined.

Lemma hb_shape_full_with_listed_shapers_witness :
  instance (Sample.boot 1000) = nullptr ∧
  ((1 + HB_SHAPERS_COUNT (H := Sample.shapers)) * sizeof_ptr
     ≤ mem_avail (Sample.boot 1000))%nat ∧
  NoDup (name <$> _hb_shapers_get (hb_shapers_t := Sample.shapers)) ∧
  ∃ cells,
    load (hb_shape_list_shapers (H := Sample.shapers) (Sample.boot 1000)).2
         (hb_shape_list_shapers (H := Sample.shapers) (Sample.boot 1000)).1
      = Some cells ∧
    (hb_shape_full (H := Sample.shapers) Sample.font Sample.words []
       (Some (until_null cells)) (Sample.boot 0)).1
    = (hb_shape_full (H := Sample.shapers) Sample.font Sample.words [] None
         (Sample.boot 0)).1.
Proof.
  assert (Hnd : NoDup (name <$> _hb_shapers_get (hb_shapers_t := Sample.shapers))).
  { apply (bool_decide_unpack _). by vm_compute. }
  split; [reflexivity|]. split; [vm_compute; lia|]. split; [exact Hnd|].
  apply (hb_shape_full_with_listed_shapers (H := Sample.shapers) Sample.font
           Sample.words [] (Sample.boot 1000) (Sample.boot 0));
    [reflexivity|vm_compute; lia|exact Hnd].
Defined.

(** What the split is given when the font has no glyph for the space is the
    font's doing: one font leaves in [space] what it held, another writes
    glyph 0. *)
Example justify_break_glyph_without_space :
  let writes_zero :=
    {| face := face Sample.font_no_space; coords := coords Sample.font_no_space;
       nominal_glyph := nominal_glyph Sample.font_no_space;
       glyph_not_found := λ _, 0 |} in
  last (log (hb_justify (H := Sample.shapers) Sample.font_no_space Sample.words
               1 [20] [] 77 (Sample.boot 0)).2)
    = Some (EvSplit (hb_shape (H := Sample.shapers) Sample.font_no_space
                       Sample.words [] (Sample.boot 0)).1 1 [20] 77) ∧
  last (log (hb_justify (H := Sample.shapers) writes_zero Sample.words
               1 [20] [] 77 (Sample.boot 0)).2)
    = Some (EvSplit (hb_shape (H := Sample.shapers) writes_zero
                       Sample.words [] (Sample.boot 0)).1 1 [20] 0).
Proof. by vm_compute. Qed.
